(** * Blink firmware ([AP/main/main.c]): the event trace of [app_main]

    [app_main] configures one GPIO pad and then toggles it forever.  The
    program is embedded as an interaction tree over the platform calls it
    makes; the calls themselves (GPIO driver, logger, FreeRTOS delay) are
    events answered by an arbitrary environment. *)

From Stdlib Require Import String ZArith List Bool Arith Lia.
From ITree Require Import ITree.
Import ListNotations.
Import ITreeNotations.
Local Open Scope itree_scope.
Local Open Scope string_scope.
Local Open Scope Z_scope.
Local Open Scope list_scope.

Set Implicit Arguments.

(** ** Platform types

    C scalar types of the ESP-IDF / FreeRTOS headers, as integers. *)

Definition gpio_num_t := Z.   (* enum gpio_num_t *)
Definition gpio_mode_t := Z.  (* enum gpio_mode_t *)
Definition esp_err_t := Z.    (* typedef int esp_err_t *)
Definition uint32_t := Z.
Definition TickType_t := Z.

(** Modelled from the spec: the log levels of [esp_log.h], a platform
    header that is not part of the sources.  The spec describes the one
    logging sink as textual, at informational level: [ESP_LOG_INFO] here. *)
Variant esp_log_level_t : Type :=
| ESP_LOG_NONE
| ESP_LOG_ERROR
| ESP_LOG_WARN
| ESP_LOG_INFO
| ESP_LOG_DEBUG
| ESP_LOG_VERBOSE.

(** ** Platform calls

    One constructor per platform function [app_main] calls, with the
    arguments of the call. *)

Inductive call : Type :=
| gpio_reset_pin (gpio_num : gpio_num_t)
| gpio_set_direction (gpio_num : gpio_num_t) (mode : gpio_mode_t)
| gpio_set_level (gpio_num : gpio_num_t) (level : uint32_t)
| esp_log (level : esp_log_level_t) (tag : string) (format : string)
| vTaskDelay (xTicksToDelay : TickType_t).

(** What each call hands back to the caller: the GPIO driver functions
    return an [esp_err_t], logging and the delay return nothing. *)
Definition ret_type (c : call) : Type :=
  match c with
  | gpio_reset_pin _ | gpio_set_direction _ _ | gpio_set_level _ _ => esp_err_t
  | esp_log _ _ _ | vTaskDelay _ => unit
  end.

Variant platformE : Type -> Type :=
| Call (c : call) : platformE (ret_type c).

Definition prog := itree platformE.

(** A call used as a statement: the value it returns is dropped. *)
Definition do_ (c : call) : prog unit :=
  ITree.bind (ITree.trigger (Call c)) (fun _ => Ret tt).

(** Modelled from the spec: the macro [ESP_LOGI(tag, format)] of
    [esp_log.h], which logs [format] under [tag] at the informational
    level. *)
Definition ESP_LOGI (tag format : string) : prog unit :=
  do_ (esp_log ESP_LOG_INFO tag format).

(** [while (c) body]: the condition is evaluated before every iteration and
    the loop is left when it is zero. *)
Definition while (c : prog Z) (body : prog unit) : prog unit :=
  ITree.iter
    (fun _ : unit =>
       v <- c ;;
       if Z.eqb v 0 then Ret (inr tt) else (body ;; Ret (inl tt)))
    tt.

(** ** Running a program against an environment

    The environment (driver, logger, scheduler and the hardware behind
    them) has a state of its own and answers every call.  [run] performs at
    most [fuel] steps and gives the calls made, in order, and the value
    returned if the program returned within the fuel. *)

Definition env (W : Type) := forall c : call, W -> W * ret_type c.

Fixpoint run {W R : Type} (h : env W) (fuel : nat) (w : W) (t : prog R)
  : list call * option R :=
  match fuel with
  | O => ([], None)
  | S fuel' =>
      match observe t with
      | RetF r => ([], Some r)
      | TauF t' => run h fuel' w t'
      | VisF e k =>
          match e in platformE T return (T -> prog R) -> list call * option R with
          | Call c => fun k' =>
              let out := run h fuel' (fst (h c w)) (k' (snd (h c w))) in
              (c :: fst out, snd out)
          end k
      end
  end.

Definition trace {W R : Type} (h : env W) (fuel : nat) (w : W) (t : prog R)
  : list call :=
  fst (run h fuel w t).

Definition result {W R : Type} (h : env W) (fuel : nat) (w : W) (t : prog R)
  : option R :=
  snd (run h fuel w t).

(** The program state reached after [n] steps (a returned program stays
    where it is). *)
Fixpoint advance {W R : Type} (h : env W) (n : nat) (w : W) (t : prog R)
  : prog R :=
  match n with
  | O => t
  | S n' =>
      match observe t with
      | RetF _ => t
      | TauF t' => advance h n' w t'
      | VisF e k =>
          match e in platformE T return (T -> prog R) -> prog R with
          | Call c => fun k' => advance h n' (fst (h c w)) (k' (snd (h c w)))
          end k
      end
  end.

(** What a program state does next: return, take the jump back to the head
    of a loop, or make a call. *)
Variant pending : Type :=
| Returns
| Jumps
| Calls (c : call).

Definition next {R : Type} (t : prog R) : pending :=
  match observe t with
  | RetF _ => Returns
  | TauF _ => Jumps
  | VisF e _ => match e with Call c => Calls c end
  end.

Definition can_step {R : Type} (t : prog R) : bool :=
  match next t with
  | Returns => false
  | _ => true
  end.

(** Two environments to run against.  [env_ok] answers every driver call
    with 0 ([ESP_OK]); [env_fail] answers every driver call with -1
    ([ESP_FAIL]) and counts the calls it has seen. *)
Definition env_ok : env unit :=
  fun c _ =>
    (tt, match c return ret_type c with
         | gpio_reset_pin _ | gpio_set_direction _ _ | gpio_set_level _ _ => 0
         | esp_log _ _ _ | vTaskDelay _ => tt
         end).

Definition env_fail : env nat :=
  fun c seen =>
    (S seen, match c return ret_type c with
             | gpio_reset_pin _ | gpio_set_direction _ _
             | gpio_set_level _ _ => -1
             | esp_log _ _ _ | vTaskDelay _ => tt
             end).

(** ** Reading a trace *)

Definition is_config (c : call) : bool :=
  match c with
  | gpio_reset_pin _ | gpio_set_direction _ _ => true
  | _ => false
  end.

Definition is_write (c : call) : bool :=
  match c with
  | gpio_set_level _ _ => true
  | _ => false
  end.

(** The pad a GPIO call works on. *)
Definition pin_of (c : call) : option gpio_num_t :=
  match c with
  | gpio_reset_pin p | gpio_set_direction p _ | gpio_set_level p _ => Some p
  | _ => None
  end.

(** The levels written, in order. *)
Definition levels_written (tr : list call) : list uint32_t :=
  flat_map (fun c => match c with gpio_set_level _ l => [l] | _ => [] end) tr.

(** The tick counts of the delays, in order. *)
Definition delays (tr : list call) : list TickType_t :=
  flat_map (fun c => match c with vTaskDelay t => [t] | _ => [] end) tr.

(** Every call paired with the call made right after it. *)
Definition adjacent (tr : list call) : list (call * call) :=
  combine tr (tl tr).

(** The stretches of a trace between one level write and the next:
    [acc] is [None] before the first write and otherwise holds, last call
    first, what was called since the latest write. *)
Fixpoint segments (acc : option (list call)) (tr : list call)
  : list (list call) :=
  match tr with
  | [] => []
  | c :: tr' =>
      if is_write c
      then match acc with
           | Some seg => rev seg :: segments (Some []) tr'
           | None => segments (Some []) tr'
           end
      else segments (option_map (cons c) acc) tr'
  end.

Definition between_writes (tr : list call) : list (list call) :=
  segments None tr.

(** The texts logged, in order. *)
Definition logged (tr : list call) : list string :=
  flat_map (fun c => match c with esp_log _ _ f => [f] | _ => [] end) tr.

(** For every delay of a trace, the level the pin had been set to when the
    delay began and the ticks asked for.  [cur] is the level written last,
    [None] as long as none was. *)
Fixpoint held (cur : option uint32_t) (tr : list call)
  : list (option uint32_t * TickType_t) :=
  match tr with
  | [] => []
  | gpio_set_level _ l :: tr' => held (Some l) tr'
  | vTaskDelay t :: tr' => (cur, t) :: held cur tr'
  | _ :: tr' => held cur tr'
  end.

(** How many calls are made in a row without a delay: one number for every
    delay of a trace, the calls made since the delay before it (since the
    start for the first).  [n] counts the calls of the run in progress. *)
Fixpoint bursts (n : nat) (tr : list call) : list nat :=
  match tr with
  | [] => []
  | vTaskDelay _ :: tr' => n :: bursts O tr'
  | _ :: tr' => bursts (S n) tr'
  end.

(** The pads the GPIO calls of a trace work on, in order. *)
Definition pins (tr : list call) : list gpio_num_t :=
  flat_map (fun c => match pin_of c with Some p => [p] | None => [] end) tr.

(** The calls made since the last delay of a trace (since the start if it
    has none).  [n] counts the calls of the run in progress. *)
Fixpoint trailing (n : nat) (tr : list call) : nat :=
  match tr with
  | [] => n
  | vTaskDelay _ :: tr' => trailing O tr'
  | _ :: tr' => trailing (S n) tr'
  end.

(** The text that tells a level. *)
Definition led_text (level : uint32_t) : string :=
  if level =? 0 then "LED OFF" else "LED ON".

(** ** The program *)

Section AppMain.

(** Constants and macros of the platform headers that [main.c] uses and
    that are not part of the sources. *)
Variable GPIO_NUM_2 : gpio_num_t.            (* driver/gpio.h *)
Variable GPIO_MODE_OUTPUT : gpio_mode_t.     (* driver/gpio.h *)
Variable pdMS_TO_TICKS : Z -> TickType_t.    (* FreeRTOS: milliseconds to ticks *)

Definition BLINK_GPIO : gpio_num_t := GPIO_NUM_2.

Definition TAG : string := "blink".

(** The body of [while (1) { ... }]. *)
Definition loop_body : prog unit :=
  do_ (gpio_set_level BLINK_GPIO 0) ;;
  ESP_LOGI TAG "LED OFF" ;;
  do_ (vTaskDelay (pdMS_TO_TICKS 500)) ;;
  do_ (gpio_set_level BLINK_GPIO 1) ;;
  ESP_LOGI TAG "LED ON" ;;
  do_ (vTaskDelay (pdMS_TO_TICKS 500)).

Definition blink_loop : prog unit :=
  while (Ret 1) loop_body.

Definition app_main : prog unit :=
  do_ (gpio_reset_pin BLINK_GPIO) ;;
  do_ (gpio_set_direction BLINK_GPIO GPIO_MODE_OUTPUT) ;;
  blink_loop.

(** ** The expected trace *)

Definition init_calls : list call :=
  [ gpio_reset_pin BLINK_GPIO;
    gpio_set_direction BLINK_GPIO GPIO_MODE_OUTPUT ].

Definition cycle : list call :=
  [ gpio_set_level BLINK_GPIO 0;
    esp_log ESP_LOG_INFO TAG "LED OFF";
    vTaskDelay (pdMS_TO_TICKS 500);
    gpio_set_level BLINK_GPIO 1;
    esp_log ESP_LOG_INFO TAG "LED ON";
    vTaskDelay (pdMS_TO_TICKS 500) ].

(** One pass through the loop takes seven steps: six calls and the jump
    back to the head of the loop (the [Tau] of [ITree.iter]).  [loop_calls fuel] is the number of calls the loop makes in
    [fuel] steps, [calls_made fuel] the number [app_main] makes. *)
Definition loop_calls (fuel : nat) : nat :=
  (6 * (fuel / 7) + fuel mod 7)%nat.

Definition calls_made (fuel : nat) : nat :=
  (Nat.min fuel 2 + loop_calls (fuel - 2))%nat.

(** The [j]-th call of the loop and the [i]-th call of [app_main],
    counted from 0. *)
Definition loop_call (j : nat) : call :=
  nth (j mod 6) cycle (vTaskDelay (pdMS_TO_TICKS 500)).

Definition nth_call (i : nat) : call :=
  match i with
  | O => gpio_reset_pin BLINK_GPIO
  | S O => gpio_set_direction BLINK_GPIO GPIO_MODE_OUTPUT
  | S (S j) => loop_call j
  end.

(** What the loop is about to do after [n] of its steps, and what
    [app_main] is about to do after [n] steps. *)
Definition loop_point (n : nat) : pending :=
  nth (n mod 7) (map Calls cycle) Jumps.

Definition point (n : nat) : pending :=
  match n with
  | O => Calls (gpio_reset_pin BLINK_GPIO)
  | S O => Calls (gpio_set_direction BLINK_GPIO GPIO_MODE_OUTPUT)
  | S (S m) => loop_point m
  end.

(** What was called since the latest level write when a pass through the
    loop ends, last call first (the accumulator of [segments]). *)
Definition open_stretch : list call :=
  [ vTaskDelay (pdMS_TO_TICKS 500); esp_log ESP_LOG_INFO TAG "LED ON" ].

(** The first [n] levels of the sequence 0, 1, 0, 1, ... *)
Definition toggling (n : nat) : list uint32_t :=
  map (fun j => Z.of_nat (j mod 2)) (seq 0 n).

(** The first [n] delays of a pin held at 0, 1, 0, 1, ... for
    [pdMS_TO_TICKS(500)] ticks each. *)
Definition duty (n : nat) : list (option uint32_t * TickType_t) :=
  map (fun j => (Some (Z.of_nat (j mod 2)), pdMS_TO_TICKS 500)) (seq 0 n).

Section Environment.

Variable W : Type.
Variable h : env W.

(** *** [run] and [advance] look at a program through [observe] only *)

Lemma run_observe {R : Type} fuel w (t1 t2 : prog R) :
  observe t1 = observe t2 -> run h fuel w t1 = run h fuel w t2.
Proof.
  intros Hobs. destruct fuel as [|fuel]; [reflexivity|].
  cbn [run]. rewrite Hobs. reflexivity.
Qed.

Lemma advance_observe {R : Type} n w (t1 t2 : prog R) :
  observe t1 = observe t2 ->
  observe (advance h n w t1) = observe (advance h n w t2).
Proof.
  intros Hobs. destruct n as [|n]; [exact Hobs|].
  cbn [advance]. rewrite Hobs.
  destruct (observe t2) eqn:Hobs2; [congruence | reflexivity | reflexivity].
Qed.

(** *** Arithmetic of the step count *)

Lemma nat_ind7 (P : nat -> Prop) :
  (forall k, (k < 7)%nat -> P k) ->
  (forall n, P n -> P (7 + n)%nat) ->
  forall n, P n.
Proof.
  intros Hbase Hstep n.
  induction n as [n IH] using lt_wf_ind.
  destruct (lt_dec n 7) as [Hlt | Hge].
  - apply Hbase, Hlt.
  - replace n with (7 + (n - 7))%nat by lia.
    apply Hstep, IH. lia.
Qed.

Lemma loop_calls_pass fuel : loop_calls (7 + fuel) = (6 + loop_calls fuel)%nat.
Proof.
  unfold loop_calls.
  replace (7 + fuel)%nat with (fuel + 1 * 7)%nat by lia.
  rewrite Nat.div_add, Nat.Div0.mod_add by lia. lia.
Qed.

Lemma loop_calls_short k : (k < 7)%nat -> loop_calls k = k.
Proof.
  intros Hk. unfold loop_calls.
  rewrite Nat.div_small, Nat.mod_small by assumption. lia.
Qed.

Lemma loop_call_shift j : loop_call (6 + j) = loop_call j.
Proof.
  unfold loop_call.
  replace (6 + j)%nat with (j + 1 * 6)%nat by lia.
  rewrite Nat.Div0.mod_add. reflexivity.
Qed.

Lemma loop_calls_from n m :
  map loop_call (seq (6 + n) m) = map loop_call (seq n m).
Proof.
  revert n. induction m as [|m IH]; intros n; [reflexivity|].
  cbn [seq map]. rewrite loop_call_shift. f_equal.
  apply (IH (S n)).
Qed.

Lemma loop_calls_cycle : map loop_call (seq 0 6) = cycle.
Proof. reflexivity. Qed.

(** *** The trace of the loop *)

Lemma run_loop_pass fuel w :
  exists w', run h (7 + fuel) w blink_loop
    = (cycle ++ fst (run h fuel w' blink_loop), snd (run h fuel w' blink_loop)).
Proof.
  eexists.
  change (7 + fuel)%nat with (S (S (S (S (S (S (S fuel))))))).
  cbn. reflexivity.
Qed.

Lemma run_loop_short k w :
  (k < 7)%nat -> run h k w blink_loop = (map loop_call (seq 0 k), None).
Proof.
  intros Hk.
  do 7 (destruct k as [|k]; [reflexivity|]).
  lia.
Qed.

Lemma run_blink_loop fuel :
  forall w,
    run h fuel w blink_loop = (map loop_call (seq 0 (loop_calls fuel)), None).
Proof.
  induction fuel as [k Hk | fuel IH] using nat_ind7; intros w.
  - rewrite loop_calls_short by assumption. apply run_loop_short, Hk.
  - destruct (run_loop_pass fuel w) as [w' ->].
    rewrite IH, loop_calls_pass. cbn [fst snd].
    rewrite seq_app, map_app, loop_calls_cycle.
    cbn [Nat.add]. rewrite (loop_calls_from 0). reflexivity.
Qed.

Lemma run_init fuel w :
  exists w', run h (2 + fuel) w app_main
    = (init_calls ++ fst (run h fuel w' blink_loop),
       snd (run h fuel w' blink_loop)).
Proof.
  eexists.
  change (2 + fuel)%nat with (S (S fuel)).
  cbn.
  rewrite (run_observe fuel _ _ blink_loop) by reflexivity.
  reflexivity.
Qed.

Lemma run_app_main fuel w :
  run h fuel w app_main = (map nth_call (seq 0 (calls_made fuel)), None).
Proof.
  destruct fuel as [|[|fuel]]; [reflexivity | reflexivity |].
  destruct (run_init fuel w) as [w' Hrun].
  change (S (S fuel)) with (2 + fuel)%nat. rewrite Hrun, run_blink_loop.
  unfold calls_made.
  replace (2 + fuel - 2)%nat with fuel by lia.
  replace (Nat.min (2 + fuel) 2) with 2%nat by lia.
  cbn [fst snd Nat.add seq map nth_call].
  rewrite <- seq_shift, map_map, <- seq_shift, map_map.
  reflexivity.
Qed.

(** *** The shape of the trace *)

Lemma cycles_as_map q : map loop_call (seq 0 (6 * q)) = concat (repeat cycle q).
Proof.
  induction q as [|q IH]; [reflexivity|].
  replace (6 * S q)%nat with (6 + 6 * q)%nat by lia.
  rewrite seq_app, map_app, loop_calls_cycle.
  cbn [Nat.add repeat concat]. rewrite (loop_calls_from 0), IH. reflexivity.
Qed.

Lemma loop_calls_at q r : map loop_call (seq (6 * q) r) = map loop_call (seq 0 r).
Proof.
  induction q as [|q IH]; [reflexivity|].
  replace (6 * S q)%nat with (6 + 6 * q)%nat by lia.
  rewrite loop_calls_from. exact IH.
Qed.

Lemma partial_cycle r : (r < 7)%nat -> map loop_call (seq 0 r) = firstn r cycle.
Proof.
  intros Hr. do 7 (destruct r as [|r]; [reflexivity|]). lia.
Qed.

Lemma loop_trace_shape f :
  map loop_call (seq 0 (loop_calls f))
  = concat (repeat cycle (f / 7)) ++ firstn (f mod 7) cycle.
Proof.
  unfold loop_calls.
  rewrite seq_app, map_app, cycles_as_map. cbn [Nat.add].
  rewrite loop_calls_at, partial_cycle; [reflexivity|].
  apply Nat.mod_upper_bound. discriminate.
Qed.

Lemma firstn_init fuel : firstn (S (S fuel)) init_calls = init_calls.
Proof. apply firstn_all2. cbn [length init_calls]. lia. Qed.

Lemma trace_shape fuel w :
  trace h fuel w app_main
  = firstn fuel init_calls
      ++ concat (repeat cycle ((fuel - 2) / 7))
      ++ firstn ((fuel - 2) mod 7) cycle.
Proof.
  unfold trace.
  destruct fuel as [|[|fuel]]; [reflexivity | reflexivity |].
  destruct (run_init fuel w) as [w' Hrun].
  change (S (S fuel)) with (2 + fuel)%nat. rewrite Hrun, run_blink_loop.
  replace (2 + fuel - 2)%nat with fuel by lia.
  cbn [fst]. rewrite loop_trace_shape.
  change (2 + fuel)%nat with (S (S fuel)). rewrite firstn_init.
  reflexivity.
Qed.

Lemma trace_running fuel w :
  trace h (S (S fuel)) w app_main
  = init_calls ++ concat (repeat cycle (fuel / 7)) ++ firstn (fuel mod 7) cycle.
Proof.
  rewrite trace_shape, firstn_init.
  replace (S (S fuel) - 2)%nat with fuel by lia.
  reflexivity.
Qed.

Lemma result_none fuel w : result h fuel w app_main = None.
Proof. unfold result. rewrite run_app_main. reflexivity. Qed.

Lemma in_firstn {A : Type} (x : A) n l : In x (firstn n l) -> In x l.
Proof.
  intros Hx. rewrite <- (firstn_skipn n l). apply in_or_app. left. exact Hx.
Qed.

Lemma in_loop_part c q r :
  In c (concat (repeat cycle q) ++ firstn r cycle) -> In c cycle.
Proof.
  intros Hc. apply in_app_iff in Hc. destruct Hc as [Hc | Hc].
  - apply in_concat in Hc. destruct Hc as [l [Hl Hc]].
    apply repeat_spec in Hl. subst l. exact Hc.
  - eapply in_firstn, Hc.
Qed.

(** Whatever the trace contains is one of the eight calls of the program
    text. *)
Lemma trace_incl fuel w :
  incl (trace h fuel w app_main) (init_calls ++ cycle).
Proof.
  rewrite trace_shape. intros c Hc.
  apply in_app_iff in Hc. destruct Hc as [Hc | Hc].
  - apply in_app_iff. left. eapply in_firstn, Hc.
  - apply in_app_iff. right. eapply in_loop_part, Hc.
Qed.

Lemma trace_Forall (P : call -> Prop) fuel w :
  Forall P (init_calls ++ cycle) -> Forall P (trace h fuel w app_main).
Proof.
  intros HP. apply Forall_forall. intros c Hc.
  eapply Forall_forall; [exact HP|]. eapply trace_incl, Hc.
Qed.

(** *** Program points *)

Lemma next_observe {R : Type} (t1 t2 : prog R) :
  observe t1 = observe t2 -> next t1 = next t2.
Proof. intros Hobs. unfold next. rewrite Hobs. reflexivity. Qed.

Lemma advance_loop_pass n w :
  exists w', advance h (7 + n) w blink_loop = advance h n w' blink_loop.
Proof. eexists. reflexivity. Qed.

Lemma next_blink_loop n :
  forall w, next (advance h n w blink_loop) = loop_point n.
Proof.
  induction n as [k Hk | n IH] using nat_ind7; intros w.
  - do 7 (destruct k as [|k]; [reflexivity|]). lia.
  - destruct (advance_loop_pass n w) as [w' ->].
    rewrite IH. unfold loop_point.
    replace (7 + n)%nat with (n + 1 * 7)%nat by lia.
    rewrite Nat.Div0.mod_add. reflexivity.
Qed.

Lemma next_app_main n w : next (advance h n w app_main) = point n.
Proof.
  destruct n as [|[|n]]; [reflexivity | reflexivity |].
  cbn [point]. rewrite <- (next_blink_loop n
    (fst (h (gpio_set_direction BLINK_GPIO GPIO_MODE_OUTPUT)
            (fst (h (gpio_reset_pin BLINK_GPIO) w))))).
  apply next_observe. cbn [advance].
  apply advance_observe. reflexivity.
Qed.

Lemma loop_point_steps n : loop_point n <> Returns.
Proof.
  unfold loop_point.
  destruct (n mod 7)%nat as [|[|[|[|[|[|[|k]]]]]]]; cbn; discriminate.
Qed.

(** *** Scanning the trace *)

Lemma segments_loop_part r :
  (r < 7)%nat ->
  forall q acc,
    acc = None \/ acc = Some open_stretch ->
    Forall (fun seg => delays seg = [pdMS_TO_TICKS 500])
           (segments acc (concat (repeat cycle q) ++ firstn r cycle)).
Proof.
  intros Hr. induction q as [|q IH]; intros acc Hacc.
  - cbn [repeat concat app].
    do 7 (destruct r as [|r];
          [destruct Hacc as [-> | ->]; cbn; repeat constructor|]).
    lia.
  - cbn [repeat concat]. rewrite <- app_assoc.
    destruct Hacc as [-> | ->]; cbn [cycle app segments is_write option_map rev];
      repeat (constructor; [reflexivity|]);
      apply IH; right; reflexivity.
Qed.

Lemma toggling_step n : toggling (2 + n) = 0 :: 1 :: toggling n.
Proof.
  unfold toggling. cbn [Nat.add seq map].
  rewrite <- seq_shift, map_map, <- seq_shift, map_map.
  change (Z.of_nat (0 mod 2)) with 0. change (Z.of_nat (1 mod 2)) with 1.
  f_equal. f_equal. apply map_ext. intros j.
  replace (S (S j)) with (j + 1 * 2)%nat by lia.
  rewrite Nat.Div0.mod_add. reflexivity.
Qed.

Lemma toggling_length n : length (toggling n) = n.
Proof. unfold toggling. rewrite length_map, length_seq. reflexivity. Qed.

Lemma levels_loop_part r :
  (r < 7)%nat ->
  forall q, exists n,
    levels_written (concat (repeat cycle q) ++ firstn r cycle) = toggling n.
Proof.
  intros Hr. induction q as [|q [n IH]].
  - cbn [repeat concat app].
    destruct r as [|r]; [exists 0%nat; reflexivity|].
    do 3 (destruct r as [|r]; [exists 1%nat; reflexivity|]).
    do 3 (destruct r as [|r]; [exists 2%nat; reflexivity|]).
    lia.
  - exists (2 + n)%nat. rewrite toggling_step, <- IH.
    cbn [repeat concat]. rewrite <- app_assoc.
    unfold levels_written. rewrite flat_map_app. reflexivity.
Qed.

(** *** Neighbouring calls *)

Lemma adjacent_map_seq (f : nat -> call) m :
  forall s ab,
    In ab (adjacent (map f (seq s m))) -> exists i, ab = (f i, f (S i)).
Proof.
  unfold adjacent.
  induction m as [|m IH]; intros s ab Hab; [contradiction|].
  destruct m as [|m]; [contradiction|].
  cbn [seq map tl combine] in Hab. destruct Hab as [<- | Hab].
  - exists s. reflexivity.
  - apply (IH (S s)). exact Hab.
Qed.

Lemma succ_mod6 j :
  (S j mod 6 = match j mod 6 with 5 => 0 | k => S k end)%nat.
Proof.
  pose proof (Nat.div_mod_eq j 6). pose proof (Nat.div_mod_eq (S j) 6).
  pose proof (Nat.mod_upper_bound j 6). pose proof (Nat.mod_upper_bound (S j) 6).
  destruct (j mod 6)%nat as [|[|[|[|[|[|]]]]]]; lia.
Qed.

(** The neighbours there can be: those of the configuration, of one pass
    through the loop, and of its last call with the first of the next. *)
Lemma nth_call_pair i :
  In (nth_call i, nth_call (S i))
     (adjacent (init_calls ++ cycle ++ firstn 1 cycle)).
Proof.
  destruct i as [|[|j]]; [left; reflexivity | right; left; reflexivity |].
  cbn [nth_call]. unfold loop_call. rewrite succ_mod6.
  pose proof (Nat.mod_upper_bound j 6 ltac:(discriminate)) as Hlt.
  destruct (j mod 6)%nat as [|[|[|[|[|[|k]]]]]]; [cbn; tauto ..| lia].
Qed.

Lemma adjacent_trace_Forall (P : call * call -> Prop) fuel w :
  Forall P (adjacent (init_calls ++ cycle ++ firstn 1 cycle)) ->
  Forall P (adjacent (trace h fuel w app_main)).
Proof.
  intros HP. apply Forall_forall. intros ab Hab.
  unfold trace in Hab. rewrite run_app_main in Hab. cbn [fst] in Hab.
  apply adjacent_map_seq in Hab. destruct Hab as [i ->].
  eapply Forall_forall; [exact HP|]. apply nth_call_pair.
Qed.

Lemma levels_toggle fuel w :
  exists n, levels_written (trace h fuel w app_main) = toggling n.
Proof.
  destruct fuel as [|[|fuel]];
    [exists 0%nat; reflexivity | exists 0%nat; reflexivity |].
  rewrite trace_running.
  cbn [init_calls app levels_written flat_map].
  apply levels_loop_part, Nat.mod_upper_bound. discriminate.
Qed.

(** *** The latest call and the step after it *)

Lemma last_app_cons {A : Type} (l1 l2 : list A) x d :
  last (l1 ++ x :: l2) d = last (x :: l2) d.
Proof.
  induction l1 as [|y l1 IH]; [reflexivity|].
  cbn [app]. rewrite <- IH. cbn [last].
  destruct (l1 ++ x :: l2) eqn:Happ; [|reflexivity].
  destruct l1; discriminate Happ.
Qed.

Lemma cycles_snoc q :
  concat (repeat cycle (S q)) = concat (repeat cycle q) ++ cycle.
Proof.
  cbn [repeat]. rewrite repeat_cons, concat_app.
  cbn [concat]. rewrite app_nil_r. reflexivity.
Qed.

Lemma step_in_pass f r :
  (f mod 7 = r)%nat -> (r < 6)%nat ->
  (S f / 7 = f / 7)%nat /\ (S f mod 7 = S r)%nat.
Proof.
  intros Hr Hlt. pose proof (Nat.div_mod_eq f 7) as Hf.
  split; symmetry.
  - apply (Nat.div_unique (S f) 7 (f / 7) (S r)); lia.
  - apply (Nat.mod_unique (S f) 7 (f / 7) (S r)); lia.
Qed.

(** Right after a level write comes its log: if the latest call is the
    write of [l], one more step adds the log of the text of [l]. *)
Lemma log_follows_write fuel w tr' p l :
  trace h fuel w app_main = tr' ++ [gpio_set_level p l] ->
  trace h (S fuel) w app_main
  = trace h fuel w app_main ++ [esp_log ESP_LOG_INFO TAG (led_text l)].
Proof.
  intros Hlast.
  assert (Hl : last (trace h fuel w app_main) (gpio_reset_pin BLINK_GPIO)
               = gpio_set_level p l)
    by (rewrite Hlast; apply last_last).
  clear Hlast tr'.
  destruct fuel as [|[|f]]; [discriminate Hl | discriminate Hl |].
  rewrite (trace_running (S f)). rewrite trace_running in Hl |- *.
  destruct (f mod 7)%nat as [|[|[|[|[|[|r]]]]]] eqn:Hr.
  - destruct (f / 7)%nat as [|q]; [discriminate Hl|].
    rewrite cycles_snoc in Hl. unfold cycle at 2 in Hl. cbn [firstn] in Hl.
    rewrite app_nil_r, app_assoc, last_app_cons in Hl. discriminate Hl.
  - destruct (@step_in_pass f 1%nat Hr ltac:(lia)) as [-> ->].
    unfold cycle at 2 in Hl. cbn [firstn] in Hl.
    rewrite app_assoc, last_app_cons in Hl. cbn [last] in Hl. injection Hl as _ <-.
    rewrite <- !app_assoc. reflexivity.
  - unfold cycle at 2 in Hl. cbn [firstn] in Hl.
    rewrite app_assoc, last_app_cons in Hl. cbn [last] in Hl. discriminate Hl.
  - unfold cycle at 2 in Hl. cbn [firstn] in Hl.
    rewrite app_assoc, last_app_cons in Hl. cbn [last] in Hl. discriminate Hl.
  - destruct (@step_in_pass f 4%nat Hr ltac:(lia)) as [-> ->].
    unfold cycle at 2 in Hl. cbn [firstn] in Hl.
    rewrite app_assoc, last_app_cons in Hl. cbn [last] in Hl. injection Hl as _ <-.
    rewrite <- !app_assoc. reflexivity.
  - unfold cycle at 2 in Hl. cbn [firstn] in Hl.
    rewrite app_assoc, last_app_cons in Hl. cbn [last] in Hl. discriminate Hl.
  - unfold cycle at 2 in Hl. cbn [firstn] in Hl.
    rewrite app_assoc, last_app_cons in Hl. cbn [last] in Hl.
    pose proof (Nat.mod_upper_bound f 7 ltac:(discriminate)) as Hlt.
    destruct r as [|r]; [discriminate Hl | lia].
Qed.

Lemma delays_pass tr :
  delays (cycle ++ tr)
  = pdMS_TO_TICKS 500 :: pdMS_TO_TICKS 500 :: delays tr.
Proof. reflexivity. Qed.

Lemma delays_passes n :
  length (delays (concat (repeat cycle n))) = (2 * n)%nat.
Proof.
  induction n as [|n IH]; [reflexivity|].
  cbn [repeat concat]. rewrite delays_pass. cbn [length]. rewrite IH. lia.
Qed.

(** *** Pads and yields *)

Lemma nodup_same (a : Z) l :
  Forall (eq a) l -> nodup Z.eq_dec (a :: l) = [a].
Proof.
  induction l as [|x l IH]; intros Hall; [reflexivity|].
  inversion Hall as [|x' l' Hx Hl]; subst x' l' x.
  cbn [nodup]. destruct (in_dec Z.eq_dec a (a :: l)) as [_ | Hnot].
  - apply IH, Hl.
  - exfalso. apply Hnot. left. reflexivity.
Qed.

Lemma pins_blink fuel w :
  Forall (eq GPIO_NUM_2) (pins (trace h fuel w app_main)).
Proof.
  apply Forall_flat_map, trace_Forall.
  unfold init_calls, cycle, BLINK_GPIO. cbn. repeat constructor.
Qed.

Lemma trace_begins fuel w :
  firstn 3 (trace h (3 + fuel) w app_main)
  = init_calls ++ [gpio_set_level BLINK_GPIO 0].
Proof.
  change (3 + fuel)%nat with (S (S (S fuel))). rewrite trace_running.
  pose proof (Nat.div_mod_eq (S fuel) 7) as Hdm.
  destruct (S fuel / 7)%nat as [|q]; [|reflexivity].
  destruct (S fuel mod 7)%nat as [|r]; [lia | reflexivity].
Qed.

Lemma trailing_pass n tr : trailing n (cycle ++ tr) = trailing 0 tr.
Proof. reflexivity. Qed.

Lemma trailing_loop_part r :
  (r < 7)%nat ->
  forall q n,
    (trailing n (concat (repeat cycle q) ++ firstn r cycle)
     <= match length (delays (concat (repeat cycle q) ++ firstn r cycle)) with
        | O => 2 + n
        | S _ => 2
        end)%nat.
Proof.
  intros Hr. induction q as [|q IH]; intros n.
  - cbn [repeat concat app].
    do 7 (destruct r as [|r]; [cbn; lia|]).
    lia.
  - cbn [repeat concat]. rewrite <- app_assoc, delays_pass, trailing_pass.
    cbn [length]. specialize (IH 0%nat).
    destruct (length (delays (concat (repeat cycle q) ++ firstn r cycle)));
      lia.
Qed.

(** ** Properties of [app_main] *)

(** C1: after the two configuration calls the trace of [app_main] is the
    six-call cycle (level 0, log, delay, level 1, log, delay) over and
    over: [2 + 7 * n] steps give the configuration followed by exactly [n]
    whole cycles with the program still running, and the trace of any
    number of steps is the configuration, whole cycles, and the beginning
    of one more cycle. *)
Theorem app_main_trace_repeats_cycle :
  forall w,
    (forall n,
        run h (2 + 7 * n) w app_main
        = (init_calls ++ concat (repeat cycle n), None)) /\
    (forall fuel,
        trace h fuel w app_main
        = firstn fuel init_calls
            ++ concat (repeat cycle ((fuel - 2) / 7))
            ++ firstn ((fuel - 2) mod 7) cycle).
Proof.
  intros w. split.
  - intros n.
    rewrite (surjective_pairing (run h (2 + 7 * n) w app_main)).
    fold (trace h (2 + 7 * n) w app_main).
    fold (result h (2 + 7 * n) w app_main).
    rewrite result_none, trace_shape.
    replace (2 + 7 * n - 2)%nat with (n * 7)%nat by lia.
    rewrite Nat.div_mul, Nat.Div0.mod_mul by discriminate.
    change (2 + 7 * n)%nat with (S (S (7 * n))). rewrite firstn_init.
    cbn [firstn]. rewrite app_nil_r. reflexivity.
  - intros fuel. apply trace_shape.
Qed.

(** C2: the loop is never left.  After any number of steps, under any
    environment, [app_main] is at a point that can take a further step and
    no run of it has returned; a state of the loop is always at one of the
    seven points of the loop: one of the six calls of the body, or the jump
    back to its head. *)
Theorem app_main_never_returns :
  forall w n,
    can_step (advance h n w app_main) = true /\
    result h n w app_main = None /\
    next (advance h n w blink_loop)
    = nth (n mod 7) (map Calls cycle) Jumps.
Proof.
  intros w n. split; [|split].
  - unfold can_step. rewrite next_app_main.
    destruct n as [|[|n]]; [reflexivity | reflexivity |].
    cbn [point]. pose proof (loop_point_steps n) as Hstep.
    destruct (loop_point n); [contradiction | reflexivity | reflexivity].
  - apply result_none.
  - apply next_blink_loop.
Qed.

(** C3: the pin is configured once, before anything else.  The first two
    calls are [gpio_reset_pin] and then [gpio_set_direction] to output
    mode, no later call is a configuration call, and a level write is
    found only after both. *)
Theorem configuration_once_before_loop :
  forall w fuel,
    firstn 2 (trace h fuel w app_main) = firstn fuel init_calls /\
    Forall (fun c => is_config c = false)
           (skipn 2 (trace h fuel w app_main)) /\
    (forall i p l,
        nth_error (trace h fuel w app_main) i = Some (gpio_set_level p l) ->
        nth_error (trace h fuel w app_main) 0
          = Some (gpio_reset_pin BLINK_GPIO) /\
        nth_error (trace h fuel w app_main) 1
          = Some (gpio_set_direction BLINK_GPIO GPIO_MODE_OUTPUT) /\
        (2 <= i)%nat).
Proof.
  intros w fuel.
  destruct fuel as [|[|fuel]].
  - split; [reflexivity | split; [constructor|]].
    intros [|i] p l Hi; discriminate Hi.
  - split; [reflexivity | split; [constructor|]].
    intros [|[|i]] p l Hi; discriminate Hi.
  - rewrite trace_running, firstn_init.
    split; [reflexivity | split].
    + cbn [init_calls app skipn].
      apply Forall_forall. intros c Hc.
      apply in_loop_part in Hc. cbn in Hc.
      repeat (destruct Hc as [<- | Hc]; [reflexivity|]).
      contradiction.
    + intros [|[|i]] p l Hi; [discriminate Hi | discriminate Hi |].
      split; [reflexivity | split; [reflexivity | lia]].
Qed.

(** C4: every delay asks for [pdMS_TO_TICKS(500)] ticks, and between one
    level write and the next there is exactly one delay, of that length. *)
Theorem delays_are_500ms :
  forall w fuel,
    Forall (eq (pdMS_TO_TICKS 500)) (delays (trace h fuel w app_main)) /\
    Forall (fun seg => delays seg = [pdMS_TO_TICKS 500])
           (between_writes (trace h fuel w app_main)).
Proof.
  intros w fuel. split.
  - apply Forall_flat_map, trace_Forall.
    cbn. repeat constructor.
  - unfold between_writes.
    destruct fuel as [|[|fuel]]; [constructor | constructor |].
    rewrite trace_running.
    cbn [init_calls app segments is_write option_map].
    apply segments_loop_part; [|left; reflexivity].
    apply Nat.mod_upper_bound. discriminate.
Qed.

(** C6: one pad, and one only.  [BLINK_GPIO] is [GPIO_NUM_2]; every GPIO
    call of the trace names it; as soon as one step is run the pads used
    are [GPIO_NUM_2] and no other; and the reset, the direction and the
    first level write are made, all three on [GPIO_NUM_2]. *)
Theorem only_blink_gpio_used :
  forall w fuel,
    BLINK_GPIO = GPIO_NUM_2 /\
    Forall (fun c => forall p, pin_of c = Some p -> p = GPIO_NUM_2)
           (trace h fuel w app_main) /\
    nodup Z.eq_dec (pins (trace h (S fuel) w app_main)) = [GPIO_NUM_2] /\
    firstn 3 (trace h (3 + fuel) w app_main)
    = [ gpio_reset_pin GPIO_NUM_2;
        gpio_set_direction GPIO_NUM_2 GPIO_MODE_OUTPUT;
        gpio_set_level GPIO_NUM_2 0 ].
Proof.
  intros w fuel. split; [reflexivity | split; [|split]].
  - apply trace_Forall. unfold init_calls, cycle, BLINK_GPIO. cbn [app].
    repeat (constructor; [intros p Hp; cbn in Hp; congruence|]).
    constructor.
  - pose proof (pins_blink (S fuel) w) as Hall.
    assert (Hhd : exists rest,
               pins (trace h (S fuel) w app_main) = GPIO_NUM_2 :: rest).
    { destruct fuel as [|fuel]; [exists []; reflexivity|].
      rewrite trace_running. eexists. reflexivity. }
    destruct Hhd as [rest Hhd]. rewrite Hhd in Hall |- *.
    apply nodup_same. inversion Hall; assumption.
  - apply trace_begins.
Qed.

(** C8: one logging sink.  Every log call of the trace is made at the
    informational level, the level of [ESP_LOGI], with the tag "blink". *)
Theorem logs_info_level_blink_tag :
  forall w fuel,
    Forall (fun c => forall level tag format,
                c = esp_log level tag format ->
                level = ESP_LOG_INFO /\ tag = "blink")
           (trace h fuel w app_main).
Proof.
  intros w fuel. apply trace_Forall. unfold init_calls, cycle. cbn [app].
  repeat (constructor;
          [intros level tag format Hc; inversion Hc; split; reflexivity|]).
  constructor.
Qed.

(** C9: the blinking starts with the off phase.  The first level write of
    the trace exists as soon as three steps are run and it writes 0. *)
Theorem first_write_is_low :
  forall w fuel,
    find is_write (trace h fuel w app_main)
    = if (3 <=? fuel)%nat then Some (gpio_set_level BLINK_GPIO 0) else None.
Proof.
  intros w fuel.
  destruct fuel as [|[|[|fuel]]]; [reflexivity | reflexivity | reflexivity |].
  rewrite trace_running.
  cbn [init_calls app find is_write Nat.leb].
  pose proof (Nat.div_mod_eq (S fuel) 7) as Hdm.
  destruct (S fuel / 7)%nat as [|q]; [|reflexivity].
  destruct (S fuel mod 7)%nat as [|r]; [lia | reflexivity].
Qed.

(** C10: the log tells the level just written.  The call right after a
    write of 0 is the log of "LED OFF" and the call right after a write of
    1 is the log of "LED ON"; a write that is the latest call is followed
    by the log of its level at the very next step; the call right before a
    log is the write of the level whose text is logged; and the trace does
    not begin with a log. *)
Theorem log_reports_level_written :
  forall w fuel,
    Forall (fun ab =>
              (forall p, fst ab = gpio_set_level p 0 ->
                         snd ab = esp_log ESP_LOG_INFO TAG "LED OFF") /\
              (forall p, fst ab = gpio_set_level p 1 ->
                         snd ab = esp_log ESP_LOG_INFO TAG "LED ON") /\
              (forall level tag format,
                  snd ab = esp_log level tag format ->
                  exists l, fst ab = gpio_set_level BLINK_GPIO l /\
                            format = led_text l))
           (adjacent (trace h fuel w app_main)) /\
    (forall before p l,
        trace h fuel w app_main = before ++ [gpio_set_level p l] ->
        trace h (S fuel) w app_main
        = before ++ [gpio_set_level p l;
                     esp_log ESP_LOG_INFO TAG (led_text l)]) /\
    hd_error (trace h fuel w app_main) = hd_error (firstn fuel init_calls).
Proof.
  intros w fuel. split; [|split].
  - apply adjacent_trace_Forall.
    unfold adjacent, init_calls, cycle. cbn [app firstn tl combine].
    repeat (constructor;
            [cbn [fst snd];
             split; [intros p Hp; try discriminate Hp; reflexivity|];
             split; [intros p Hp; try discriminate Hp; reflexivity|];
             intros level tag format Hlog; try discriminate Hlog;
             inversion Hlog; eexists; split; reflexivity|]).
    constructor.
  - intros before p l Hlast.
    erewrite log_follows_write by exact Hlast.
    rewrite Hlast, <- app_assoc.
    reflexivity.
  - destruct fuel as [|[|fuel]]; [reflexivity | reflexivity |].
    rewrite trace_running, firstn_init. reflexivity.
Qed.

(** ** Further properties of [app_main] *)

Lemma duty_step n :
  duty (S (S n))
  = (Some 0, pdMS_TO_TICKS 500) :: (Some 1, pdMS_TO_TICKS 500) :: duty n.
Proof.
  unfold duty. cbn [seq map].
  rewrite <- seq_shift, map_map, <- seq_shift, map_map.
  change (Z.of_nat (0 mod 2)) with 0. change (Z.of_nat (1 mod 2)) with 1.
  f_equal. f_equal. apply map_ext. intros j.
  replace (S (S j)) with (j + 1 * 2)%nat by lia.
  rewrite Nat.Div0.mod_add. reflexivity.
Qed.

Lemma held_loop_part r :
  (r < 7)%nat ->
  forall q cur,
    cur = None \/ cur = Some 1 ->
    held cur (concat (repeat cycle q) ++ firstn r cycle)
    = duty (length (delays (concat (repeat cycle q) ++ firstn r cycle))).
Proof.
  intros Hr. induction q as [|q IH]; intros cur Hcur.
  - cbn [repeat concat app].
    do 7 (destruct r as [|r]; [destruct Hcur as [-> | ->]; reflexivity|]).
    lia.
  - cbn [repeat concat]. rewrite <- app_assoc, delays_pass.
    cbn [length]. rewrite duty_step.
    rewrite <- (IH (Some 1)) by (right; reflexivity).
    destruct Hcur as [-> | ->]; reflexivity.
Qed.

Lemma logged_pass tr :
  logged (cycle ++ tr) = "LED OFF" :: "LED ON" :: logged tr.
Proof. reflexivity. Qed.

Lemma levels_pass tr :
  levels_written (cycle ++ tr) = 0 :: 1 :: levels_written tr.
Proof. reflexivity. Qed.

Lemma transcript_loop_part r :
  (r < 7)%nat ->
  forall q,
    logged (concat (repeat cycle q) ++ firstn r cycle)
    = map led_text
        (firstn (length (logged (concat (repeat cycle q) ++ firstn r cycle)))
                (levels_written (concat (repeat cycle q) ++ firstn r cycle)))
    /\ (length (levels_written (concat (repeat cycle q) ++ firstn r cycle))
        <= S (length (logged (concat (repeat cycle q) ++ firstn r cycle))))%nat.
Proof.
  intros Hr. induction q as [|q [IHtext IHlen]].
  - cbn [repeat concat app].
    do 7 (destruct r as [|r]; [split; [reflexivity | cbn; lia]|]).
    lia.
  - cbn [repeat concat]. rewrite <- app_assoc, logged_pass, levels_pass.
    cbn [length firstn map]. split.
    + rewrite <- IHtext. reflexivity.
    + lia.
Qed.

Lemma bursts_loop_part r :
  (r < 7)%nat ->
  forall q n,
    bursts n (concat (repeat cycle q) ++ firstn r cycle)
    = match length (delays (concat (repeat cycle q) ++ firstn r cycle)) with
      | O => []
      | S k => (2 + n)%nat :: repeat 2%nat k
      end.
Proof.
  intros Hr. induction q as [|q IH]; intros n.
  - cbn [repeat concat app].
    do 7 (destruct r as [|r]; [reflexivity|]).
    lia.
  - cbn [repeat concat]. rewrite <- app_assoc, delays_pass.
    cbn [length repeat].
    change (bursts n (cycle ++ concat (repeat cycle q) ++ firstn r cycle))
      with ((2 + n)%nat :: 2%nat
              :: bursts 0 (concat (repeat cycle q) ++ firstn r cycle)).
    rewrite IH.
    destruct (length (delays (concat (repeat cycle q) ++ firstn r cycle)));
      reflexivity.
Qed.

Lemma levels_passes n w :
  levels_written (trace h (2 + 7 * n) w app_main) = toggling (2 * n).
Proof.
  change (2 + 7 * n)%nat with (S (S (7 * n))). rewrite trace_running.
  change (levels_written (init_calls ++ ?tr)) with (levels_written tr).
  replace (7 * n)%nat with (n * 7)%nat by lia.
  rewrite Nat.div_mul, Nat.Div0.mod_mul by discriminate.
  cbn [firstn]. rewrite app_nil_r.
  induction n as [|n IH]; [reflexivity|].
  cbn [repeat concat]. rewrite levels_pass, IH.
  replace (2 * S n)%nat with (2 + 2 * n)%nat by lia.
  rewrite toggling_step. reflexivity.
Qed.

(** X1: the pin is off and on for equal time.  Every delay is entered with
    a level written, the [j]-th delay with level [j mod 2], and lasts
    [pdMS_TO_TICKS(500)] ticks; [n] passes through the loop hold the pin
    [n] times at 0 and [n] times at 1. *)
Theorem pin_held_evenly :
  forall w,
    (forall fuel,
        held None (trace h fuel w app_main)
        = duty (length (delays (trace h fuel w app_main)))) /\
    (forall n, held None (trace h (2 + 7 * n) w app_main) = duty (2 * n)).
Proof.
  intros w.
  assert (Hheld : forall fuel,
             held None (trace h fuel w app_main)
             = duty (length (delays (trace h fuel w app_main)))).
  { intros [|[|fuel]]; [reflexivity | reflexivity |].
    rewrite trace_running.
    change (held None (init_calls ++ ?tr)) with (held None tr).
    change (delays (init_calls ++ ?tr)) with (delays tr).
    apply held_loop_part; [|left; reflexivity].
    apply Nat.mod_upper_bound. discriminate. }
  split; [exact Hheld|].
  intros n. rewrite Hheld. f_equal.
  change (2 + 7 * n)%nat with (S (S (7 * n))). rewrite trace_running.
  change (delays (init_calls ++ ?tr)) with (delays tr).
  replace (7 * n)%nat with (n * 7)%nat by lia.
  rewrite Nat.div_mul, Nat.Div0.mod_mul by discriminate.
  cbn [firstn]. rewrite app_nil_r. apply delays_passes.
Qed.

(** X2: the log is a transcript of the pin.  The texts logged are, in
    order, the texts of the levels written, and at most the latest write
    is not logged yet. *)
Theorem log_is_transcript_of_writes :
  forall w fuel,
    logged (trace h fuel w app_main)
    = map led_text
        (firstn (length (logged (trace h fuel w app_main)))
                (levels_written (trace h fuel w app_main)))
    /\ (length (levels_written (trace h fuel w app_main))
        <= S (length (logged (trace h fuel w app_main))))%nat.
Proof.
  intros w [|[|fuel]];
    [split; [reflexivity | cbn; lia] | split; [reflexivity | cbn; lia] |].
  rewrite trace_running.
  change (logged (init_calls ++ ?tr)) with (logged tr).
  change (levels_written (init_calls ++ ?tr)) with (levels_written tr).
  apply transcript_loop_part, Nat.mod_upper_bound. discriminate.
Qed.

(** X3: the task never runs long without yielding.  Four calls are made
    before the first delay (reset, direction, write, log) and exactly two
    between one delay and the next (write, log); the calls made since the
    latest delay are never more than that; and the delays keep coming, two
    in every pass through the loop. *)
Theorem calls_between_delays :
  forall w,
    (forall fuel,
        bursts 0 (trace h fuel w app_main)
        = match length (delays (trace h fuel w app_main)) with
          | O => []
          | S k => 4%nat :: repeat 2%nat k
          end) /\
    (forall fuel,
        (trailing 0 (trace h fuel w app_main)
         <= match length (delays (trace h fuel w app_main)) with
            | O => 4
            | S _ => 2
            end)%nat) /\
    (forall n,
        length (delays (trace h (2 + 7 * n) w app_main)) = (2 * n)%nat).
Proof.
  intros w. split; [|split].
  - intros [|[|fuel]]; [reflexivity | reflexivity |].
    rewrite trace_running.
    change (bursts 0 (init_calls ++ ?tr)) with (bursts 2 tr).
    change (delays (init_calls ++ ?tr)) with (delays tr).
    apply bursts_loop_part, Nat.mod_upper_bound. discriminate.
  - intros [|[|fuel]]; [cbn; lia | cbn; lia |].
    rewrite trace_running.
    change (trailing 0 (init_calls ++ ?tr)) with (trailing 2 tr).
    change (delays (init_calls ++ ?tr)) with (delays tr).
    apply (@trailing_loop_part (fuel mod 7)), Nat.mod_upper_bound.
    discriminate.
  - intros n.
    change (2 + 7 * n)%nat with (S (S (7 * n))). rewrite trace_running.
    change (delays (init_calls ++ ?tr)) with (delays tr).
    replace (7 * n)%nat with (n * 7)%nat by lia.
    rewrite Nat.div_mul, Nat.Div0.mod_mul by discriminate.
    cbn [firstn]. rewrite app_nil_r. apply delays_passes.
Qed.

End Environment.

(** C5: nothing is done with what the calls return.  Two environments
    that answer the calls in any two ways (with error codes or without)
    see the same calls, the same outcome and the same program point after
    every number of steps. *)
Theorem results_never_inspected :
  forall (W1 W2 : Type) (h1 : env W1) (h2 : env W2) w1 w2 n,
    run h1 n w1 app_main = run h2 n w2 app_main /\
    next (advance h1 n w1 app_main) = next (advance h2 n w2 app_main).
Proof.
  intros W1 W2 h1 h2 w1 w2 n. split.
  - rewrite !run_app_main. reflexivity.
  - rewrite !next_app_main. reflexivity.
Qed.

(** X4: the levels written do not depend on the environment.  Whatever
    two environments hold (the pin's earlier level included) and answer,
    the levels written are the same; they are 0, 1, 0, 1, ...: the [j]-th
    write carries [j mod 2]; and [n] passes through the loop write [2 * n]
    levels. *)
Theorem levels_toggle_in_any_environment :
  forall (W1 W2 : Type) (h1 : env W1) (h2 : env W2) w1 w2,
    (forall fuel,
        levels_written (trace h1 fuel w1 app_main)
        = levels_written (trace h2 fuel w2 app_main)) /\
    (forall fuel,
        levels_written (trace h1 fuel w1 app_main)
        = toggling (length (levels_written (trace h1 fuel w1 app_main)))) /\
    (forall n,
        levels_written (trace h1 (2 + 7 * n) w1 app_main) = toggling (2 * n)).
Proof.
  intros W1 W2 h1 h2 w1 w2. split; [|split].
  - intros fuel. unfold trace. rewrite !run_app_main. reflexivity.
  - intros fuel. destruct (levels_toggle h1 fuel w1) as [n ->].
    rewrite toggling_length. reflexivity.
  - intros n. apply levels_passes.
Qed.

End AppMain.

(** ** Sample runs

    The platform constants are given sample values: pad 2, output mode 2
    and a tick of 10 ms. *)

Example app_main_12_steps :
  run env_ok 12 tt (app_main 2 2 (fun ms => ms / 10))
  = ([ gpio_reset_pin 2; gpio_set_direction 2 2;
       gpio_set_level 2 0; esp_log ESP_LOG_INFO "blink" "LED OFF";
       vTaskDelay 50;
       gpio_set_level 2 1; esp_log ESP_LOG_INFO "blink" "LED ON";
       vTaskDelay 50;
       gpio_set_level 2 0; esp_log ESP_LOG_INFO "blink" "LED OFF";
       vTaskDelay 50 ],
     None).
Proof. reflexivity. Qed.

Example app_main_failing_driver :
  run env_fail 12 0%nat (app_main 2 2 (fun ms => ms / 10))
  = run env_ok 12 tt (app_main 2 2 (fun ms => ms / 10)).
Proof. reflexivity. Qed.

Example app_main_stretches :
  between_writes (trace env_ok 12 tt (app_main 2 2 (fun ms => ms / 10)))
  = [ [ esp_log ESP_LOG_INFO "blink" "LED OFF"; vTaskDelay 50 ];
      [ esp_log ESP_LOG_INFO "blink" "LED ON"; vTaskDelay 50 ] ].
Proof. reflexivity. Qed.

Example app_main_levels :
  levels_written (trace env_fail 30 0%nat (app_main 2 2 (fun ms => ms / 10)))
  = [0; 1; 0; 1; 0; 1; 0; 1].
Proof. reflexivity. Qed.

Example app_main_point_after_9 :
  next (advance env_ok 9 tt (app_main 2 2 (fun ms => ms / 10))) = Calls (gpio_set_level 2 0)
  /\ next (advance env_ok 8 tt (app_main 2 2 (fun ms => ms / 10))) = Jumps.
Proof. split; reflexivity. Qed.

Example app_main_held :
  held None (trace env_ok 12 tt (app_main 2 2 (fun ms => ms / 10)))
  = [ (Some 0, 50); (Some 1, 50); (Some 0, 50) ].
Proof. reflexivity. Qed.

Example app_main_logged :
  logged (trace env_fail 13 0%nat (app_main 2 2 (fun ms => ms / 10)))
  = [ "LED OFF"; "LED ON"; "LED OFF" ]
  /\ levels_written (trace env_fail 13 0%nat (app_main 2 2 (fun ms => ms / 10)))
     = [0; 1; 0; 1].
Proof. split; reflexivity. Qed.

Example app_main_bursts :
  bursts 0 (trace env_ok 12 tt (app_main 2 2 (fun ms => ms / 10)))
  = [4; 2; 2]%nat.
Proof. reflexivity. Qed.

Example app_main_pins :
  pins (trace env_ok 6 tt (app_main 2 2 (fun ms => ms / 10))) = [2; 2; 2; 2].
Proof. reflexivity. Qed.

Example app_main_trailing :
  map (fun fuel => trailing 0 (trace env_ok fuel tt (app_main 2 2 (fun ms => ms / 10))))
      (seq 0 12)
  = [0; 1; 2; 3; 4; 0; 1; 2; 0; 0; 1; 2]%nat.
Proof. reflexivity. Qed.
